(** * discogs-angular2-app: the search box and the root of the store

    A shallow embedding of
    [src/client/app/components/search-box/search-box.component.ts] and of the
    root reducer module ([reducers/index.ts]) that is shipped in the same file:
    the component's class declaration, the selectors that combine the playlist
    and player slices, and the root reducer built from the feature reducers. *)

From stdpp Require Import gmap strings list fin_maps.

Open Scope Z_scope.

(** ** The JavaScript values the module handles *)

(** The run-time errors the code can raise. *)
Inductive error : Type :=
  | TypeError
  | FeatureError (msg : string).

(** The result of running a piece of code: a value, or a raised error. *)
Inductive outcome (A : Type) : Type :=
  | Returns (a : A)
  | Throws (e : error).
Arguments Returns {A} a.
Arguments Throws {A} e.

#[global] Instance outcome_ret : MRet outcome := fun _ a => Returns a.
#[global] Instance outcome_bind : MBind outcome := fun _ _ f o =>
  match o with
  | Returns a => f a
  | Throws e => Throws e
  end.
#[global] Instance outcome_fmap : FMap outcome := fun _ _ f o =>
  match o with
  | Returns a => Returns (f a)
  | Throws e => Throws e
  end.

(** A value of a TypeScript object type: the project compiles without strict
    null checks, so that [undefined] and [null] inhabit every type. *)
Inductive nullable (A : Type) : Type :=
  | Undefined
  | Null
  | Defined (a : A).
Arguments Undefined {A}.
Arguments Null {A}.
Arguments Defined {A} a.

(** [undefined] and [null] are falsy; objects and arrays, even empty, are truthy. *)
Definition truthy {A} (x : nullable A) : bool :=
  match x with
  | Defined _ => true
  | _ => false
  end.

Definition absent {A} (x : nullable A) : Prop := truthy x = false.

(** [x.f]: reading a property of [undefined] or [null] raises a TypeError. *)
Definition prop {A B} (x : nullable A) (f : A → B) : outcome B :=
  match x with
  | Defined a => Returns (f a)
  | _ => Throws TypeError
  end.

(** [x && x.f], where the property holds a value that is never absent. *)
Definition and_prop {A B} (x : nullable A) (f : A → B) : nullable B :=
  match x with
  | Undefined => Undefined
  | Null => Null
  | Defined a => Defined (f a)
  end.

(** [x && x.f], where the property is itself an object that may be absent. *)
Definition and_then {A B} (x : nullable A) (f : A → nullable B) : nullable B :=
  match x with
  | Undefined => Undefined
  | Null => Null
  | Defined a => f a
  end.

(** [s === k] for a string [s]: no string is strictly equal to [undefined] or [null]. *)
Definition strict_equals (s : string) (k : nullable string) : bool :=
  match k with
  | Defined t => String.eqb s t
  | _ => false
  end.

(** [Array.prototype.indexOf]: the first index holding a strictly equal
    element, [-1] when there is none. *)
Fixpoint indexOf_from (i : Z) (xs : list string) (k : nullable string) : Z :=
  match xs with
  | [] => -1
  | x :: rest => if strict_equals x k then i else indexOf_from (i + 1) rest k
  end.

Definition indexOf (xs : list string) (k : nullable string) : Z := indexOf_from 0 xs k.

(** [xs[i]]: [undefined] outside the array. *)
Definition at_index {A} (xs : list A) (i : Z) : nullable A :=
  if i <? 0 then Undefined
  else match xs !! Z.to_nat i with
       | Some a => Defined a
       | None => Undefined
       end.

(** [Array.prototype.filter] with a callback that may raise: the elements are
    visited in order and the first error aborts the traversal. *)
Fixpoint array_filter {A} (keep : A → outcome bool) (xs : list A) : outcome (list A) :=
  match xs with
  | [] => Returns []
  | x :: rest =>
      b ← keep x;
      kept ← array_filter keep rest;
      mret (if b : bool then x :: kept else kept)
  end.

(** ** The search box component *)

Module SearchBox.

Inductive decorator : Type := Input | Output.

Inductive initializer : Type :=
  | NoInitializer
  | StringLiteral (s : string)
  | NewEventEmitter (payload : string)
  | ConstructorParameter.

(** A property of the component class, as declared. *)
Record member : Type := {
  name : string;
  decorators : list decorator;
  annotation : option string;
  init : initializer
}.

Definition decorator_eqb (a b : decorator) : bool :=
  match a, b with
  | Input, Input | Output, Output => true
  | _, _ => false
  end.

Definition decorated (d : decorator) (m : member) : bool :=
  existsb (decorator_eqb d) (decorators m).

(** [export class SearchBoxComponent], its properties in declaration order. *)
Definition SearchBoxComponent : list member :=
  [ {| name := "placeholder"; decorators := []; annotation := None;
       init := StringLiteral "Search for a release..." |};
    {| name := "searchTerm"; decorators := [Input]; annotation := Some "string";
       init := NoInitializer |};
    {| name := "onSearch"; decorators := [Output]; annotation := None;
       init := NewEventEmitter "string" |};
    {| name := "store"; decorators := []; annotation := Some "Store<fromRoot.State>";
       init := ConstructorParameter |} ].

(** The names a parent template may bind to, and the events it may listen to. *)
Definition inputs (c : list member) : list string :=
  name <$> List.filter (decorated Input) c.

Definition outputs (c : list member) : list string :=
  name <$> List.filter (decorated Output) c.

(** The properties that hold a string: those initialised with a string
    literal and those annotated [string]. *)
Definition holds_string (m : member) : bool :=
  match init m, annotation m with
  | StringLiteral _, _ => true
  | NoInitializer, Some ty => String.eqb ty "string"
  | _, _ => false
  end.

Definition initial_value (m : member) : nullable string :=
  match init m with
  | StringLiteral s => Defined s
  | _ => Undefined
  end.

(** The string properties of an instance of the component. *)
Definition instance : Type := list (string * nullable string).

(** A freshly constructed instance: each property holds the value of its
    initializer, [undefined] when it has none. *)
Definition construct (c : list member) : instance :=
  (λ m, (name m, initial_value m)) <$> List.filter holds_string c.

Definition read (i : instance) (p : string) : nullable string :=
  match List.find (λ kv, String.eqb (fst kv) p) i with
  | Some kv => snd kv
  | None => Undefined
  end.

Definition write (p : string) (v : string) (i : instance) : instance :=
  (λ kv, if String.eqb (fst kv) p then (fst kv, Defined v) else kv) <$> i.

(** A property binding [[p]="v"] written by a parent template: the framework
    accepts it only for a declared input, and leaves every other property of
    the instance alone. *)
Definition bind (c : list member) (p : string) (v : string) (i : instance) : option instance :=
  if existsb (String.eqb p) (inputs c) then Some (write p v i) else None.

(** The instance after the parent's bindings were applied in order; a
    binding the framework refuses is dropped. *)
Fixpoint bind_all (c : list member) (bs : list (string * string)) (i : instance) : instance :=
  match bs with
  | [] => i
  | (p, v) :: rest =>
      match bind c p v i with
      | Some i' => bind_all c rest i'
      | None => bind_all c rest i
      end
  end.

End SearchBox.

(** ** The playlist and player selectors *)

(** The feature modules [./player] and [./playlist] and the models they use
    are not part of the source. Of their objects only the properties that the
    selectors read are named; the others are carried along as [other]. *)

Module YoutubeVideo.
(** Modelled from the spec: a video, as the player holds the current one
    ([current.id]) and as a playlist item wraps it ([v.video.id]). *)
Record t : Type := { id : string; other : list (string * string) }.
End YoutubeVideo.

Module PlaylistItem.
(** Modelled from the spec: an item of a playlist's ordered video list. *)
Record t : Type := { video : YoutubeVideo.t; other : list (string * string) }.
End PlaylistItem.

(** [v.video.id] *)
Abbreviation video_id v := (YoutubeVideo.id (PlaylistItem.video v)).

Module Playlist.
(** Modelled from the spec: a playlist ([p.id], [current.videos]); a playlist
    may come without its video list. *)
Record t : Type := {
  id : string;
  videos : nullable (list PlaylistItem.t);
  other : list (string * string)
}.
End Playlist.

Module Selectors.

(** The object [getNextPreviousVideos] builds. *)
Record NextPrevious : Type := {
  next : nullable PlaylistItem.t;
  prev : nullable PlaylistItem.t
}.

(** The selectors below are the functions handed to [createSelector], which
    applies them to the slices its input selectors give (and remembers the
    last result).

    [(playlists, current) => playlists.filter(p => p.id !== current.id)] *)
Definition getPlaylistsForList
    (playlists : nullable (list Playlist.t)) (current : nullable Playlist.t)
    : outcome (list Playlist.t) :=
  match playlists with
  | Defined ps =>
      array_filter
        (λ p, cid ← prop current Playlist.id; mret (negb (String.eqb (Playlist.id p) cid)))
        ps
  | _ => Throws TypeError
  end.

(** [current => current && current.videos] *)
Definition getSelectedPlaylistVideos (current : nullable Playlist.t)
    : nullable (list PlaylistItem.t) :=
  and_then current Playlist.videos.

(** [(videos, current) => { if (!videos) return null; ... }] *)
Definition getNextPreviousVideos
    (videos : nullable (list PlaylistItem.t)) (current : nullable YoutubeVideo.t)
    : outcome (nullable NextPrevious) :=
  match videos with
  | Defined vs =>
      let currentIndex :=
        indexOf ((λ v, YoutubeVideo.id (PlaylistItem.video v)) <$> vs)
                (and_prop current YoutubeVideo.id) in
      Returns (Defined
        {| next := if currentIndex <? Z.of_nat (length vs) - 1
                   then at_index vs (currentIndex + 1) else at_index vs 0;
           prev := if currentIndex >? 0
                   then at_index vs (currentIndex - 1) else Null |})
  | _ => Returns Null
  end.

(** A result that offers no video to move to: [null], or an object whose
    [next] and [prev] are both absent. *)
Definition neutral (r : outcome (nullable NextPrevious)) : Prop :=
  match r with
  | Returns (Defined np) => absent (next np) ∧ absent (prev np)
  | Returns _ => True
  | Throws _ => False
  end.

End Selectors.

(** ** The root reducer *)

(** [environment], of which the module reads one flag. *)
Record Environment : Type := { production : bool }.

Module Root.

(** Objects live in a heap and are handed around by reference: a reference
    is the index of its object, and a new object goes to the end. *)
Abbreviation loc := nat.

(** What a key of the global state holds. *)
Inductive value : Type :=
  | VUndefined
  | VNull
  | VRef (l : loc).

#[global] Instance value_eq_dec : EqDecision value.
Proof. solve_decision. Defined.

Section WithFeatureState.

(** The contents of a feature's state object (an opaque record, with all
    that hangs below it) and the actions that are dispatched. *)
Context {FState Action : Type}.

Record object : Type := { contents : FState; frozen : bool }.

Abbreviation heap := (list object).

(** Code that runs against the heap, and may raise. *)
Definition M (A : Type) : Type := heap → heap * outcome A.

#[global] Instance M_ret : MRet M := λ _ a h, (h, Returns a).
#[global] Instance M_bind : MBind M := λ _ _ f m h,
  match m h with
  | (h', Returns a) => f a h'
  | (h', Throws e) => (h', Throws e)
  end.

Definition raise {A} (e : error) : M A := λ h, (h, Throws e).

(** The body of a feature reducer, once it has looked at its arguments:
    it may assign to the state object it was handed, and it ends by
    returning that same object, by returning something else ([undefined],
    [null] or an object it has built), or by raising. *)
Inductive prog : Type :=
  | ReturnState
  | Return (v : nullable FState)
  | Assign (c : FState) (k : prog)
  | Throw (e : error).

(** A feature reducer, [(state, action) => ...]: what it does is a
    function of what it finds in its state object and of the action. *)
Definition FeatureReducer : Type := nullable FState → Action → prog.

(** What a reducer finds when it looks at the value it was handed. *)
Definition read (h : heap) (v : value) : nullable FState :=
  match v with
  | VUndefined => Undefined
  | VNull => Null
  | VRef l =>
      match h !! l with
      | Some o => Defined (contents o)
      | None => Undefined
      end
  end.

(** Running a body. An assignment replaces the contents of the state
    object in place; the module is strict code, so that assigning to a
    frozen object raises a TypeError, as does assigning to a property of
    [undefined] or [null]. *)
Fixpoint exec (p : prog) (state : value) : M value := λ h,
  match p with
  | ReturnState => (h, Returns state)
  | Return Undefined => (h, Returns VUndefined)
  | Return Null => (h, Returns VNull)
  | Return (Defined c) =>
      (h ++ [{| contents := c; frozen := false |}], Returns (VRef (length h)))
  | Assign c k =>
      match state with
      | VRef l =>
          match h !! l with
          | Some o =>
              if frozen o then (h, Throws TypeError)
              else exec k state (<[l := {| contents := c; frozen := false |}]> h)
          | None => (h, Throws TypeError)
          end
      | _ => (h, Throws TypeError)
      end
  | Throw e => (h, Throws e)
  end.

(** [reducer(previousStateForKey, action)] *)
Definition call (reducer : FeatureReducer) (state : value) (action : Action) : M value :=
  λ h, exec (reducer (read h state) action) state h.

(** The root reducer's type, [ActionReducer<State>]: the global state is
    an object that holds one value per key. *)
Definition ActionReducer : Type :=
  nullable (gmap string value) → Action → M (gmap string value).

(** Modelled from the spec: [combineReducers] of [@ngrx/store] is not part
    of the source. The reducer it makes routes the action to every feature
    reducer, each on the value the state holds under its key ([undefined]
    when there is none, and for every key when there is no prior state),
    and collects the results under the same keys into a new object. *)
Fixpoint combination (reducers : list (string * FeatureReducer))
    (state : gmap string value) (action : Action)
    (nextState : gmap string value) : M (gmap string value) :=
  match reducers with
  | [] => mret nextState
  | (key, reducer) :: rest =>
      let previousStateForKey := default VUndefined (state !! key) in
      nextStateForKey ← call reducer previousStateForKey action;
      combination rest state action (<[key := nextStateForKey]> nextState)
  end.

(** Modelled from the spec: the reducer [combineReducers] makes; without a
    prior state it starts from the empty object, and reading a key of [null]
    raises. *)
Definition combineReducers (reducers : list (string * FeatureReducer)) : ActionReducer :=
  λ state action,
    match state with
    | Undefined => combination reducers ∅ action ∅
    | Null => raise TypeError
    | Defined s => combination reducers s action ∅
    end.

(** Modelled from the spec: whether a state refers to an object. *)
Definition refers (s : gmap string value) (l : loc) : bool :=
  existsb (λ kv, bool_decide (kv.2 = VRef l)) (map_to_list s).

(** Modelled from the spec: [Object.freeze]. *)
Definition freeze (o : object) : object :=
  {| contents := contents o; frozen := true |}.

(** Modelled from the spec: freezing a state freezes the objects under its
    keys, with all they hold. *)
Definition deepFreeze (s : gmap string value) : M unit := λ h,
  (imap (λ l o, if refers s l then freeze o else o) h, Returns ()).

(** Modelled from the spec: [storeFreeze] of [ngrx-store-freeze] is not
    part of the source. It wraps a reducer into one that freezes the state
    it is given before it runs the reducer, and the state the reducer
    returns, so that a later assignment to any of their objects raises.
    (Actions are plain data here: there is no payload object to freeze.) *)
Definition storeFreeze (reducer : ActionReducer) : ActionReducer :=
  λ state action,
    match state with
    | Null => raise TypeError
    | _ =>
        let state := match state with Defined s => s | _ => ∅ end in
        _ ← deepFreeze state;
        nextState ← reducer (Defined state) action;
        _ ← deepFreeze nextState;
        mret nextState
    end.

(** Modelled from the spec: [compose] of [@ngrx/core], which applies from
    right to left. *)
Definition compose {A B C} (f : B → C) (g : A → B) : A → C := λ x, f (g x).

(** The reducers of the feature modules, which are not part of the
    source: what the module imports as [fromRelease.reducer], ...,
    [fromRouter.routerReducer]. *)
Record Features : Type := {
  fromRelease_reducer : FeatureReducer;
  fromVideos_reducer : FeatureReducer;
  fromPlayer_reducer : FeatureReducer;
  fromPlaylist_reducer : FeatureReducer;
  fromCollection_reducer : FeatureReducer;
  fromWantlist_reducer : FeatureReducer;
  fromSearch_reducer : FeatureReducer;
  fromSales_reducer : FeatureReducer;
  fromUser_reducer : FeatureReducer;
  fromRouter_routerReducer : FeatureReducer
}.


Definition reducers (f : Features) : list (string * FeatureReducer) :=
  [ ("release", fromRelease_reducer f);
    ("videos", fromVideos_reducer f);
    ("player", fromPlayer_reducer f);
    ("playlist", fromPlaylist_reducer f);
    ("collection", fromCollection_reducer f);
    ("wantlist", fromWantlist_reducer f);
    ("search", fromSearch_reducer f);
    ("sales", fromSales_reducer f);
    ("user", fromUser_reducer f);
    ("router", fromRouter_routerReducer f) ].

Definition developmentReducer (f : Features) : ActionReducer :=
  compose storeFreeze combineReducers (reducers f).

Definition productionReducer (f : Features) : ActionReducer :=
  combineReducers (reducers f).

(** [export function reducer(state, action)]: the flag is read from the
    environment each time the function is called. *)
Definition reducer (environment : Environment) (f : Features) : ActionReducer :=
  λ state action,
    if negb (production environment) then developmentReducer f state action
    else productionReducer f state action.

(** *** Notions the properties are stated with *)



(** A body that assigns to the state object it was handed (an assignment,
    if there is one, comes first). *)
Definition assigns (p : prog) : bool :=
  match p with
  | Assign _ _ => true
  | _ => false
  end.

Definition mutates (p : prog) : Prop := assigns p = true.

(** A body that raises an error of its own. *)
Fixpoint throws (p : prog) : bool :=
  match p with
  | Throw _ => true
  | Assign _ k => throws k
  | _ => false
  end.

(** A feature reducer that is pure: it never assigns to its state. (That
    what it returns depends on the state's contents and on the action
    alone is what [FeatureReducer] says already.) *)
Definition pure (r : FeatureReducer) : Prop :=
  ∀ state action, assigns (r state action) = false.

(** A feature reducer that raises no error of its own, and that assigns
    only when it was handed a state object. *)
Definition well_behaved (r : FeatureReducer) : Prop :=
  ∀ state action,
    throws (r state action) = false ∧
    (assigns (r state action) = true → truthy state = true).

(** Every reference of the state is to an object of the heap. *)
Definition live (h : heap) (s : gmap string value) : Prop :=
  ∀ key l, s !! key = Some (VRef l) → (l < length h)%nat.

(** The state as a tree of plain data: each key with the contents of what
    it holds. Two states with the same snapshot are structurally equal,
    whether or not they hold the same references. *)
Definition snapshot (h : heap) (s : gmap string value) : gmap string (nullable FState) :=
  read h <$> s.

Definition observe (r : heap * outcome (gmap string value))
    : outcome (gmap string (nullable FState)) :=
  snapshot r.1 <$> r.2.

(** The loop of [combination] on plain data, for features that do not assign
    to their state: from the snapshot of the state to the snapshot of the
    result, with no heap in between. *)
Fixpoint combination_data (reducers : list (string * FeatureReducer))
    (state : gmap string (nullable FState)) (action : Action)
    (nextState : gmap string (nullable FState))
    : outcome (gmap string (nullable FState)) :=
  match reducers with
  | [] => Returns nextState
  | (key, reducer) :: rest =>
      let previousStateForKey := default Undefined (state !! key) in
      match reducer previousStateForKey action with
      | ReturnState =>
          combination_data rest state action (<[key := previousStateForKey]> nextState)
      | Return v => combination_data rest state action (<[key := v]> nextState)
      | Assign _ _ => Throws TypeError
      | Throw e => Throws e
      end
  end.

End WithFeatureState.

Arguments object : clear implicits.
Arguments prog : clear implicits.
Arguments FeatureReducer : clear implicits.
Arguments Features : clear implicits.

(** The slice selectors, [(state: State) => state.release] and the like:
    reading a key that the object lacks gives [undefined]. *)
Definition getReleaseState (state : gmap string value) : value :=
  default VUndefined (state !! "release").

Definition getVideosState (state : gmap string value) : value :=
  default VUndefined (state !! "videos").

Definition getPlayerState (state : gmap string value) : value :=
  default VUndefined (state !! "player").

Definition getPlaylistState (state : gmap string value) : value :=
  default VUndefined (state !! "playlist").

Definition getSearchState (state : gmap string value) : value :=
  default VUndefined (state !! "search").

Definition getCollectionState (state : gmap string value) : value :=
  default VUndefined (state !! "collection").

Definition getWantlistState (state : gmap string value) : value :=
  default VUndefined (state !! "wantlist").

Definition getSalesState (state : gmap string value) : value :=
  default VUndefined (state !! "sales").

Definition getUserState (state : gmap string value) : value :=
  default VUndefined (state !! "user").

Section Slices.

Context {FState Action : Type}.

(** What a body that does not assign hands back, as plain data, given the
    data of the state it was handed. *)
Definition returned (p : prog FState) (state : nullable FState) : nullable FState :=
  match p with
  | ReturnState => state
  | Return v => v
  | _ => Undefined
  end.

(** Each slice selector beside the reducer that [reducers] registers under
    the key the selector reads. *)
Definition slices (f : Features FState Action)
    : list ((gmap string value → value) * FeatureReducer FState Action) :=
  [ (getReleaseState, fromRelease_reducer f);
    (getVideosState, fromVideos_reducer f);
    (getPlayerState, fromPlayer_reducer f);
    (getPlaylistState, fromPlaylist_reducer f);
    (getSearchState, fromSearch_reducer f);
    (getCollectionState, fromCollection_reducer f);
    (getWantlistState, fromWantlist_reducer f);
    (getSalesState, fromSales_reducer f);
    (getUserState, fromUser_reducer f) ].

End Slices.

End Root.

(** ** Sample data *)

Module Sample.

Definition video (i : string) : YoutubeVideo.t :=
  {| YoutubeVideo.id := i; YoutubeVideo.other := [("title", "Track " +:+ i)] |}.

Definition item (i : string) : PlaylistItem.t :=
  {| PlaylistItem.video := video i; PlaylistItem.other := [("release", "r1")] |}.

Definition A : PlaylistItem.t := item "a".
Definition B : PlaylistItem.t := item "b".
Definition C : PlaylistItem.t := item "c".


Definition playlist (i : string) (vs : nullable (list PlaylistItem.t)) : Playlist.t :=
  {| Playlist.id := i; Playlist.videos := vs; Playlist.other := [("name", "List " +:+ i)] |}.

Definition P1 : Playlist.t := playlist "p1" (Defined [A; B; C]).
Definition P2 : Playlist.t := playlist "p2" (Defined []).
Definition P3 : Playlist.t := playlist "p3" Undefined.

(** A feature whose state is a string: it starts from [init], appends a mark
    on the action ["touch"] and hands back its state on any other action. *)
Definition feature (init : string) : Root.FeatureReducer string string :=
  λ state action,
    match state with
    | Defined c =>
        if String.eqb action "touch" then Root.Return (Defined (c +:+ "!"))
        else Root.ReturnState
    | _ => Root.Return (Defined init)
    end.

(** A feature that, on ["touch"], marks its state object in place. *)
Definition careless (init : string) : Root.FeatureReducer string string :=
  λ state action,
    match state with
    | Defined c =>
        if String.eqb action "touch" then Root.Assign (c +:+ "!") Root.ReturnState
        else Root.ReturnState
    | _ => Root.Return (Defined init)
    end.

Definition features_with (player : Root.FeatureReducer string string)
    : Root.Features string string :=
  {| Root.fromRelease_reducer := feature "release";
     Root.fromVideos_reducer := feature "videos";
     Root.fromPlayer_reducer := player;
     Root.fromPlaylist_reducer := feature "playlist";
     Root.fromCollection_reducer := feature "collection";
     Root.fromWantlist_reducer := feature "wantlist";
     Root.fromSearch_reducer := feature "search";
     Root.fromSales_reducer := feature "sales";
     Root.fromUser_reducer := feature "user";
     Root.fromRouter_routerReducer := feature "router" |}.

Definition features : Root.Features string string := features_with (feature "player").

Definition careless_features : Root.Features string string :=
  features_with (careless "player").

(** A heap with the state objects of three features, and a state that refers
    to them. *)
Definition loaded_heap : list (Root.object string) :=
  [ {| Root.contents := "a release"; Root.frozen := false |};
    {| Root.contents := "some videos"; Root.frozen := false |};
    {| Root.contents := "a player"; Root.frozen := false |} ].

Definition loaded_state : gmap string Root.value :=
  <["release" := Root.VRef 0%nat]>
    (<["videos" := Root.VRef 1%nat]> (<["player" := Root.VRef 2%nat]> ∅)).

End Sample.

(** * Properties *)

(** ** Arrays *)

Section Arrays.

Lemma strict_equals_absent (s : string) (k : nullable string) :
  absent k → strict_equals s k = false.
Proof. by destruct k. Qed.

Lemma indexOf_from_absent (xs : list string) (k : nullable string) (i : Z) :
  absent k → indexOf_from i xs k = -1.
Proof.
  intros Hk. revert i.
  induction xs as [|x xs IH]; intros i; simpl; [done|].
  by rewrite strict_equals_absent.
Qed.

Lemma indexOf_from_head (x : string) (xs : list string) (i : Z) :
  indexOf_from i (x :: xs) (Defined x) = i.
Proof. simpl. by rewrite String.eqb_refl. Qed.

(** The search stops at the first occurrence: a key that is met only after
    [xs] is found at the length of [xs]. *)
Lemma indexOf_from_after (xs ys : list string) (k : string) (i : Z) :
  k ∉ xs → indexOf_from i (xs ++ k :: ys) (Defined k) = i + Z.of_nat (length xs).
Proof.
  revert i. induction xs as [|x xs IH]; intros i Hk.
  - cbn [app length]. rewrite indexOf_from_head. lia.
  - apply not_elem_of_cons in Hk as [Hne Hk].
    cbn [app indexOf_from strict_equals].
    destruct (String.eqb_spec x k) as [->|_]; [done|].
    rewrite IH by done. cbn [length]. lia.
Qed.


Lemma at_index_nat {A} (xs : list A) (n : nat) (x : A) :
  xs !! n = Some x → at_index xs (Z.of_nat n) = Defined x.
Proof.
  intros H. unfold at_index.
  destruct (Z.ltb_spec (Z.of_nat n) 0); [lia|].
  by rewrite Nat2Z.id, H.
Qed.

(** When the callback never raises, [array_filter] is the list filter. *)
Lemma array_filter_total {A} (keep : A → outcome bool) (f : A → bool) (xs : list A) :
  (∀ x, x ∈ xs → keep x = Returns (f x)) →
  array_filter keep xs = Returns (List.filter f xs).
Proof.
  induction xs as [|x xs IH]; intros Hk; simpl; [done|].
  rewrite (Hk x) by left. simpl.
  rewrite IH by (intros y Hy; apply Hk; by right). simpl.
  by destruct (f x).
Qed.

(** [indexOf] answers [-1] or a position of the array. *)
Lemma indexOf_from_bounds (xs : list string) (k : nullable string) (i : Z) :
  indexOf_from i xs k = -1 ∨ i ≤ indexOf_from i xs k < i + Z.of_nat (length xs).
Proof.
  revert i. induction xs as [|x xs IH]; intros i; cbn [indexOf_from length]; [by left|].
  destruct (strict_equals x k); [right; lia|].
  destruct (IH (i + 1)) as [->|?]; [by left|right; lia].
Qed.

(** A key that no element equals is not found. *)
Lemma indexOf_from_missing (xs : list string) (k : string) (i : Z) :
  k ∉ xs → indexOf_from i xs (Defined k) = -1.
Proof.
  revert i. induction xs as [|x xs IH]; intros i Hk; cbn [indexOf_from strict_equals]; [done|].
  apply not_elem_of_cons in Hk as [Hne Hk].
  destruct (String.eqb_spec x k) as [->|_]; [done|]. by apply IH.
Qed.

(** In an array without repetition each element is found where it is. *)
Lemma indexOf_NoDup (xs : list string) (n : nat) (x : string) :
  NoDup xs → xs !! n = Some x → indexOf xs (Defined x) = Z.of_nat n.
Proof.
  intros Hnd Hx. pose proof (take_drop_middle xs n x Hx) as Hsplit.
  rewrite <- Hsplit in Hnd. apply NoDup_app in Hnd as (_ & Hfresh & _).
  unfold indexOf. rewrite <- Hsplit. rewrite indexOf_from_after.
  - rewrite length_take. apply lookup_lt_Some in Hx. lia.
  - intros Hin. apply (Hfresh x Hin). by left.
Qed.

Lemma at_index_in_range {A} (xs : list A) (i : Z) :
  0 ≤ i < Z.of_nat (length xs) → ∃ x, at_index xs i = Defined x ∧ x ∈ xs.
Proof.
  intros Hi. destruct (lookup_lt_is_Some_2 xs (Z.to_nat i)) as [x Hx]; [lia|].
  exists x. split; [|by apply list_elem_of_lookup_2 in Hx].
  rewrite <- (Z2Nat.id i) by lia. by apply at_index_nat.
Qed.

(** The element before a position that closes a prefix is the last element
    of the prefix. *)
Lemma at_index_before {A} (pre rest : list A) :
  (if Z.of_nat (length pre) >? 0
   then at_index (pre ++ rest) (Z.of_nat (length pre) - 1) else Null)
  = match last pre with Some p => Defined p | None => Null end.
Proof.
  destruct pre as [|p pre _] using rev_ind; [done|].
  rewrite last_snoc, length_app. cbn [length].
  destruct (Z.gtb_spec (Z.of_nat (length pre + 1)) 0); [|lia].
  replace (Z.of_nat (length pre + 1) - 1) with (Z.of_nat (length pre)) by lia.
  apply at_index_nat. rewrite <- (assoc_L (++)). cbn [app]. apply list_lookup_middle. done.
Qed.

(** The element after a position, or the first element of the array when the
    position is the last one. *)
Lemma at_index_after {A} (pre post : list A) (c : A) :
  (if Z.of_nat (length pre) <? Z.of_nat (length (pre ++ c :: post)) - 1
   then at_index (pre ++ c :: post) (Z.of_nat (length pre) + 1)
   else at_index (pre ++ c :: post) 0)
  = match post with
    | n :: _ => Defined n
    | [] => match pre with first :: _ => Defined first | [] => Defined c end
    end.
Proof.
  rewrite length_app. destruct post as [|n post]; cbn [length].
  - destruct (Z.ltb_spec (Z.of_nat (length pre)) (Z.of_nat (length pre + 1) - 1)); [lia|].
    destruct pre; reflexivity.
  - destruct (Z.ltb_spec (Z.of_nat (length pre))
                (Z.of_nat (length pre + S (S (length post))) - 1)); [|lia].
    replace (Z.of_nat (length pre) + 1) with (Z.of_nat (length (pre ++ [c])))
      by (rewrite length_app; cbn [length]; lia).
    apply at_index_nat. rewrite (cons_middle c pre (n :: post)), (assoc_L (++)).
    by apply list_lookup_middle.
Qed.

End Arrays.

(** ** The selectors *)

Section SelectorFacts.

Import Selectors.

(** C1, as amended. With nothing playing ([undefined]) the selector does not
    raise, and on a video list that is not empty it offers the first video of
    the list as the next one and no previous one. *)
Theorem getNextPreviousVideos_nothing_playing
    (first : PlaylistItem.t) (rest : list PlaylistItem.t) :
  getNextPreviousVideos (Defined (first :: rest)) Undefined
  = Returns (Defined {| next := Defined first; prev := Null |}).
Proof.
  unfold getNextPreviousVideos, indexOf.
  rewrite indexOf_from_absent by done.
  cbn [and_prop length].
  destruct (Z.ltb_spec (-1) (Z.of_nat (S (length rest)) - 1)); [|lia].
  reflexivity.
Qed.

(** C1 does not hold as stated: on the list [[A]] with nothing playing the
    result is not neutral, its next video is [A]. *)
Lemma getNextPreviousVideos_nothing_playing_not_neutral :
  [Sample.A] ≠ [] ∧
  ¬ neutral (getNextPreviousVideos (Defined [Sample.A]) Undefined).
Proof.
  split; [done|].
  cbn. intros [Hnext _]. discriminate Hnext.
Qed.

(** C4. On the video list [[A, B, C]] with [B] playing, the selector returns
    [C] as the next video and [A] as the previous one ([A] and [B] being
    different videos, that is, videos with different ids). *)
Theorem getNextPreviousVideos_middle (A B C : PlaylistItem.t) :
  video_id A ≠ video_id B →
  getNextPreviousVideos (Defined [A; B; C]) (Defined (PlaylistItem.video B))
  = Returns (Defined {| next := Defined C; prev := Defined A |}).
Proof.
  intros HAB. unfold getNextPreviousVideos, indexOf.
  cbn [fmap list_fmap and_prop indexOf_from strict_equals].
  destruct (String.eqb_spec (video_id A) (video_id B)) as [|_]; [done|].
  rewrite String.eqb_refl. reflexivity.
Qed.

Lemma getNextPreviousVideos_middle_witness :
  getNextPreviousVideos (Defined [Sample.A; Sample.B; Sample.C])
                        (Defined (PlaylistItem.video Sample.B))
  = Returns (Defined {| next := Defined Sample.C; prev := Defined Sample.A |}).
Proof. apply (getNextPreviousVideos_middle Sample.A Sample.B Sample.C). by vm_compute. Defined.




(** C10. On a video list that is present but empty the selector does not
    raise: it returns an object whose [next] is [undefined] and whose [prev]
    is [null]; and it returns [null] instead of an object exactly when the
    video list is absent, which is what [getSelectedPlaylistVideos] hands over
    when there is no current playlist or when that playlist has no list. *)
Theorem getNextPreviousVideos_empty_or_absent :
  (∀ current : nullable YoutubeVideo.t,
      getNextPreviousVideos (Defined []) current
      = Returns (Defined {| next := Undefined; prev := Null |})) ∧
  (∀ (videos : nullable (list PlaylistItem.t)) (current : nullable YoutubeVideo.t),
      getNextPreviousVideos videos current = Returns Null ↔ absent videos) ∧
  (∀ (playlist : nullable Playlist.t) (current : nullable YoutubeVideo.t),
      getNextPreviousVideos (getSelectedPlaylistVideos playlist) current = Returns Null
      ↔ (absent playlist ∨ ∃ p, playlist = Defined p ∧ absent (Playlist.videos p))).
Proof.
  split; [|split].
  - intros current. unfold getNextPreviousVideos, indexOf. simpl. reflexivity.
  - intros [| |vs] current; simpl; split; done.
  - intros [| |p] current; simpl.
    + split; [by left|done].
    + split; [by left|done].
    + destruct (Playlist.videos p) as [| |vs] eqn:Hv; simpl; split;
        try done; try (intros _; right; exists p; by rewrite Hv).
      intros [|(q & [= <-] & Hq)]; [done|]. by rewrite Hv in Hq.
Qed.

(** C6. On the playlists [[P1, P2, P3]] with [P2] current the selector
    returns [[P1, P3]]; in general, for a current playlist that is defined,
    it returns, in their order, exactly the playlists whose id differs from
    the id of the current one. *)
Theorem getPlaylistsForList_others :
  (∀ P1 P2 P3 : Playlist.t,
      Playlist.id P1 ≠ Playlist.id P2 → Playlist.id P3 ≠ Playlist.id P2 →
      getPlaylistsForList (Defined [P1; P2; P3]) (Defined P2) = Returns [P1; P3]) ∧
  (∀ (playlists : list Playlist.t) (current : Playlist.t),
      getPlaylistsForList (Defined playlists) (Defined current)
      = Returns (filter (λ p, Playlist.id p ≠ Playlist.id current) playlists)).
Proof.
  assert (Hgen : ∀ (playlists : list Playlist.t) (current : Playlist.t),
      getPlaylistsForList (Defined playlists) (Defined current)
      = Returns (filter (λ p, Playlist.id p ≠ Playlist.id current) playlists)).
  { intros playlists current. unfold getPlaylistsForList.
    rewrite (array_filter_total _
               (λ p, negb (String.eqb (Playlist.id p) (Playlist.id current)))) by done.
    f_equal. induction playlists as [|p ps IH]; [done|].
    cbn [List.filter]. rewrite filter_cons, IH.
    destruct (String.eqb_spec (Playlist.id p) (Playlist.id current));
      by destruct (decide _). }
  split; [|done].
  intros P1 P2 P3 H1 H3. rewrite Hgen.
  rewrite !filter_cons, filter_nil.
  repeat destruct (decide _); done.
Qed.

Lemma getPlaylistsForList_others_witness :
  getPlaylistsForList (Defined [Sample.P1; Sample.P2; Sample.P3]) (Defined Sample.P2)
  = Returns [Sample.P1; Sample.P3].
Proof. apply (proj1 getPlaylistsForList_others); by vm_compute. Defined.

(** C2, at the failing input. With one playlist loaded and no current
    playlist, the selector raises a TypeError; it does the same when the list
    of playlists itself is absent. *)
Theorem getPlaylistsForList_absent_raises :
  getPlaylistsForList (Defined [Sample.P1]) Undefined = Throws TypeError ∧
  getPlaylistsForList Undefined (Defined Sample.P1) = Throws TypeError.
Proof. split; reflexivity. Qed.

(** *** Further properties of the selectors *)

(** The result of [getNextPreviousVideos] in terms of the index that
    [indexOf] finds. *)
Lemma getNextPreviousVideos_index (vs : list PlaylistItem.t)
    (current : nullable YoutubeVideo.t) (i : Z) :
  indexOf ((λ v, video_id v) <$> vs) (and_prop current YoutubeVideo.id) = i →
  getNextPreviousVideos (Defined vs) current
  = Returns (Defined
      {| next := if i <? Z.of_nat (length vs) - 1
                 then at_index vs (i + 1) else at_index vs 0;
         prev := if i >? 0 then at_index vs (i - 1) else Null |}).
Proof. intros <-. reflexivity. Qed.

(** X1. The position of the video that plays is the first item that carries
    its id: with the list split there as [pre ++ c :: post], the next video
    is the item that follows, or the first item of the list when nothing
    follows, and the previous video is the last item of [pre], or [null]
    when [pre] is empty. Later items with the same id play no part. *)
Theorem getNextPreviousVideos_first_occurrence
    (pre post : list PlaylistItem.t) (c : PlaylistItem.t) (current : YoutubeVideo.t) :
  YoutubeVideo.id current = video_id c →
  YoutubeVideo.id current ∉ (λ v, video_id v) <$> pre →
  getNextPreviousVideos (Defined (pre ++ c :: post)) (Defined current)
  = Returns (Defined
      {| next := match post with
                 | n :: _ => Defined n
                 | [] => match pre with first :: _ => Defined first | [] => Defined c end
                 end;
         prev := match last pre with Some p => Defined p | None => Null end |}).
Proof.
  intros Hid Hfresh.
  rewrite (getNextPreviousVideos_index _ _ (Z.of_nat (length pre))).
  - by rewrite at_index_after, at_index_before.
  - unfold indexOf. rewrite fmap_app, fmap_cons. cbn [and_prop].
    rewrite Hid in Hfresh |- *. rewrite indexOf_from_after by done.
    rewrite length_fmap. lia.
Qed.

Lemma getNextPreviousVideos_first_occurrence_witness :
  getNextPreviousVideos (Defined ([Sample.A] ++ Sample.B :: [Sample.C; Sample.B]))
                        (Defined (Sample.video "b"))
  = Returns (Defined {| next := Defined Sample.C; prev := Defined Sample.A |}).
Proof.
  apply (getNextPreviousVideos_first_occurrence
           [Sample.A] [Sample.C; Sample.B] Sample.B (Sample.video "b")); [reflexivity|].
  cbn. intros H%list_elem_of_singleton. discriminate H.
Defined.

(** X2. When the video that plays is not in the list, or when nothing plays
    ([undefined] or [null]), the selector answers as it does before the start
    of the list: next is the first item ([undefined] on the empty list) and
    there is no previous video. *)
Theorem getNextPreviousVideos_not_in_list
    (vs : list PlaylistItem.t) (current : nullable YoutubeVideo.t) :
  (∀ c, current = Defined c → YoutubeVideo.id c ∉ (λ v, video_id v) <$> vs) →
  getNextPreviousVideos (Defined vs) current
  = Returns (Defined
      {| next := match vs with first :: _ => Defined first | [] => Undefined end;
         prev := Null |}).
Proof.
  intros Hmissing.
  rewrite (getNextPreviousVideos_index _ _ (-1)).
  - destruct vs as [|first rest]; [done|]. cbn [length].
    destruct (Z.ltb_spec (-1) (Z.of_nat (S (length rest)) - 1)); [done|lia].
  - unfold indexOf. destruct current as [| |c]; cbn [and_prop].
    + by apply indexOf_from_absent.
    + by apply indexOf_from_absent.
    + apply indexOf_from_missing. by apply Hmissing.
Qed.

Lemma getNextPreviousVideos_not_in_list_witness :
  getNextPreviousVideos (Defined [Sample.A; Sample.B]) (Defined (Sample.video "c"))
  = Returns (Defined {| next := Defined Sample.A; prev := Null |}).
Proof.
  apply (getNextPreviousVideos_not_in_list [Sample.A; Sample.B] (Defined (Sample.video "c"))).
  intros c [= <-]. cbn.
  intros [H|[H|H]%elem_of_cons]%elem_of_cons; [discriminate H..|].
  by apply elem_of_nil in H.
Defined.

(** X3. On a list that is not empty the selector always offers a next video,
    and it is an item of the list; the previous video is [null] or an item of
    the list, never [undefined]. *)
Theorem getNextPreviousVideos_in_list
    (vs : list PlaylistItem.t) (current : nullable YoutubeVideo.t) :
  vs ≠ [] →
  ∃ np n,
    getNextPreviousVideos (Defined vs) current = Returns (Defined np) ∧
    next np = Defined n ∧ n ∈ vs ∧
    (prev np = Null ∨ ∃ p, prev np = Defined p ∧ p ∈ vs).
Proof.
  intros Hvs.
  assert (Hlen : 0 < Z.of_nat (length vs)) by (destruct vs; [done|cbn; lia]).
  set (i := indexOf ((λ v, video_id v) <$> vs) (and_prop current YoutubeVideo.id)).
  assert (Hi : -1 ≤ i < Z.of_nat (length vs)).
  { subst i. unfold indexOf.
    destruct (indexOf_from_bounds ((λ v, video_id v) <$> vs)
                (and_prop current YoutubeVideo.id) 0) as [->|Hb]; [lia|].
    rewrite length_fmap in Hb. lia. }
  rewrite (getNextPreviousVideos_index vs current i eq_refl).
  assert (Hnext : ∃ n, (if i <? Z.of_nat (length vs) - 1
                        then at_index vs (i + 1) else at_index vs 0) = Defined n ∧ n ∈ vs).
  { destruct (Z.ltb_spec i (Z.of_nat (length vs) - 1)); apply at_index_in_range; lia. }
  destruct Hnext as (n & Hn & Hin).
  eexists _, n. split; [reflexivity|]. cbn [next prev]. split; [done|]. split; [done|].
  destruct (Z.gtb_spec i 0); [|by left].
  right. apply at_index_in_range. lia.
Qed.

Lemma getNextPreviousVideos_in_list_witness :
  ∃ np n,
    getNextPreviousVideos (Defined [Sample.A; Sample.B]) Null = Returns (Defined np) ∧
    next np = Defined n ∧ n ∈ [Sample.A; Sample.B] ∧
    (prev np = Null ∨ ∃ p, prev np = Defined p ∧ p ∈ [Sample.A; Sample.B]).
Proof. apply (getNextPreviousVideos_in_list [Sample.A; Sample.B] Null). discriminate. Defined.

(** In a list in which no video occurs twice, the video at position [i] is
    found at [i]. *)
Lemma getNextPreviousVideos_NoDup (vs : list PlaylistItem.t) (i : nat) (c : PlaylistItem.t) :
  NoDup ((λ v, video_id v) <$> vs) → vs !! i = Some c →
  getNextPreviousVideos (Defined vs) (Defined (PlaylistItem.video c))
  = Returns (Defined
      {| next := if Z.of_nat i <? Z.of_nat (length vs) - 1
                 then at_index vs (Z.of_nat i + 1) else at_index vs 0;
         prev := if Z.of_nat i >? 0 then at_index vs (Z.of_nat i - 1) else Null |}).
Proof.
  intros Hnd Hc. apply getNextPreviousVideos_index. cbn [and_prop].
  apply indexOf_NoDup; [done|]. by rewrite list_lookup_fmap, Hc.
Qed.

(** X4. In a list in which no video occurs twice, with the video at
    position [i] playing, the next video is the one at position [i + 1]
    modulo the length of the list (it wraps around), and the previous video
    is the one at position [i - 1], or [null] at the start of the list (it
    does not wrap around). *)
Theorem getNextPreviousVideos_positions (vs : list PlaylistItem.t) (i : nat) (c : PlaylistItem.t) :
  NoDup ((λ v, video_id v) <$> vs) → vs !! i = Some c →
  ∃ np n,
    getNextPreviousVideos (Defined vs) (Defined (PlaylistItem.video c))
    = Returns (Defined np) ∧
    vs !! (S i mod length vs)%nat = Some n ∧ next np = Defined n ∧
    (i = 0%nat → prev np = Null) ∧
    (∀ j, i = S j → ∃ p, vs !! j = Some p ∧ prev np = Defined p).
Proof.
  intros Hnd Hc. rewrite (getNextPreviousVideos_NoDup vs i c Hnd Hc).
  pose proof (lookup_lt_Some _ _ _ Hc) as Hi.
  assert (Hnext : ∃ n, vs !! (S i mod length vs)%nat = Some n ∧
                       (if Z.of_nat i <? Z.of_nat (length vs) - 1
                        then at_index vs (Z.of_nat i + 1) else at_index vs 0) = Defined n).
  { destruct (Z.ltb_spec (Z.of_nat i) (Z.of_nat (length vs) - 1)).
    - rewrite Nat.mod_small by lia.
      destruct (lookup_lt_is_Some_2 vs (S i)) as [n Hn]; [lia|].
      exists n. split; [done|].
      replace (Z.of_nat i + 1) with (Z.of_nat (S i)) by lia. by apply at_index_nat.
    - replace (S i) with (length vs) by lia. rewrite Nat.Div0.mod_same.
      destruct (lookup_lt_is_Some_2 vs 0) as [n Hn]; [lia|].
      exists n. split; [done|]. by apply (at_index_nat vs 0). }
  destruct Hnext as (n & Hn & Hnext).
  eexists _, n. split; [reflexivity|]. cbn [next prev].
  split; [done|]. split; [done|]. split.
  - by intros ->.
  - intros j ->. destruct (lookup_lt_is_Some_2 vs j) as [p Hp]; [lia|].
    exists p. split; [done|].
    destruct (Z.gtb_spec (Z.of_nat (S j)) 0); [|lia].
    replace (Z.of_nat (S j) - 1) with (Z.of_nat j) by lia. by apply at_index_nat.
Qed.

Lemma getNextPreviousVideos_positions_witness :
  ∃ np n,
    getNextPreviousVideos (Defined [Sample.A; Sample.B; Sample.C])
                          (Defined (PlaylistItem.video Sample.C))
    = Returns (Defined np) ∧
    [Sample.A; Sample.B; Sample.C] !! (3 mod length [Sample.A; Sample.B; Sample.C])%nat
    = Some n ∧ next np = Defined n ∧
    (2%nat = 0%nat → prev np = Null) ∧
    (∀ j, 2%nat = S j →
          ∃ p, [Sample.A; Sample.B; Sample.C] !! j = Some p ∧ prev np = Defined p).
Proof.
  apply (getNextPreviousVideos_positions [Sample.A; Sample.B; Sample.C] 2 Sample.C);
    [|reflexivity].
  apply (bool_decide_unpack _). by vm_compute.
Defined.

(** X5. In a list in which no video occurs twice, moving to the next video
    and then to the previous one leads back: if [n] follows [c] in the list,
    then [n] is the next video while [c] plays and [c] is the previous video
    while [n] plays. *)
Theorem getNextPreviousVideos_next_then_previous
    (vs : list PlaylistItem.t) (i : nat) (c n : PlaylistItem.t) :
  NoDup ((λ v, video_id v) <$> vs) → vs !! i = Some c → vs !! S i = Some n →
  (∃ np, getNextPreviousVideos (Defined vs) (Defined (PlaylistItem.video c))
         = Returns (Defined np) ∧ next np = Defined n) ∧
  (∃ np, getNextPreviousVideos (Defined vs) (Defined (PlaylistItem.video n))
         = Returns (Defined np) ∧ prev np = Defined c).
Proof.
  intros Hnd Hc Hn. pose proof (lookup_lt_Some _ _ _ Hn) as Hi. split.
  - rewrite (getNextPreviousVideos_NoDup vs i c Hnd Hc).
    eexists. split; [reflexivity|]. cbn [next].
    destruct (Z.ltb_spec (Z.of_nat i) (Z.of_nat (length vs) - 1)); [|lia].
    replace (Z.of_nat i + 1) with (Z.of_nat (S i)) by lia. by apply at_index_nat.
  - rewrite (getNextPreviousVideos_NoDup vs (S i) n Hnd Hn).
    eexists. split; [reflexivity|]. cbn [prev].
    destruct (Z.gtb_spec (Z.of_nat (S i)) 0); [|lia].
    replace (Z.of_nat (S i) - 1) with (Z.of_nat i) by lia. by apply at_index_nat.
Qed.

Lemma getNextPreviousVideos_next_then_previous_witness :
  (∃ np, getNextPreviousVideos (Defined [Sample.A; Sample.B; Sample.C])
                               (Defined (PlaylistItem.video Sample.A))
         = Returns (Defined np) ∧ next np = Defined Sample.B) ∧
  (∃ np, getNextPreviousVideos (Defined [Sample.A; Sample.B; Sample.C])
                               (Defined (PlaylistItem.video Sample.B))
         = Returns (Defined np) ∧ prev np = Defined Sample.A).
Proof.
  apply (getNextPreviousVideos_next_then_previous
           [Sample.A; Sample.B; Sample.C] 0 Sample.A Sample.B); [|reflexivity..].
  apply (bool_decide_unpack _). by vm_compute.
Defined.

(** With a list and a current playlist at hand, the callback of
    [getPlaylistsForList] never raises and the selector is the list filter. *)
Lemma getPlaylistsForList_filter (playlists : list Playlist.t) (current : Playlist.t) :
  getPlaylistsForList (Defined playlists) (Defined current)
  = Returns (filter (λ p, Playlist.id p ≠ Playlist.id current) playlists).
Proof.
  unfold getPlaylistsForList.
  rewrite (array_filter_total _
             (λ p, negb (String.eqb (Playlist.id p) (Playlist.id current)))) by done.
  f_equal. induction playlists as [|p ps IH]; [done|].
  cbn [List.filter]. rewrite filter_cons, IH.
  destruct (String.eqb_spec (Playlist.id p) (Playlist.id current));
    by destruct (decide _).
Qed.

(** X6. [getPlaylistsForList] raises exactly when the list of playlists is
    absent, or when the current playlist is absent and the list is not empty
    (on the empty list the current playlist is never looked at); what it
    raises is a TypeError. *)
Theorem getPlaylistsForList_raises_iff
    (playlists : nullable (list Playlist.t)) (current : nullable Playlist.t) :
  (getPlaylistsForList playlists current = Throws TypeError
   ↔ absent playlists ∨ (absent current ∧ playlists ≠ Defined [])) ∧
  (∀ e, getPlaylistsForList playlists current = Throws e → e = TypeError) ∧
  (getPlaylistsForList (Defined []) current = Returns []).
Proof.
  split; [|split]; [| |done].
  - destruct playlists as [| |[|p ps]]; cbn; try (split; [by left|done]).
    + split; [done|]. intros [|[_ ?]]; done.
    + destruct current as [| |c]; cbn; try (split; [by right|done]).
      change (getPlaylistsForList (Defined (p :: ps)) (Defined c) = Throws TypeError
              ↔ absent (Defined (p :: ps)) ∨ (absent (Defined c) ∧ Defined (p :: ps) ≠ Defined [])).
      rewrite getPlaylistsForList_filter. split; [done|]. intros [|[? _]]; done.
  - intros e. destruct playlists as [| |ps]; cbn; try by intros [= <-].
    destruct current as [| |c].
    + destruct ps; cbn; [done|by intros [= <-]].
    + destruct ps; cbn; [done|by intros [= <-]].
    + change (getPlaylistsForList (Defined ps) (Defined c) = Throws e → e = TypeError).
      by rewrite getPlaylistsForList_filter.
Qed.

(** X7. With a current playlist at hand the selector returns a sublist of
    the playlists (same order, nothing added) that holds no playlist with the
    current id; it returns the list as it is when no playlist has the current
    id; and selecting again from what it returned changes nothing. *)
Theorem getPlaylistsForList_result (playlists : list Playlist.t) (current : Playlist.t) :
  ∃ others,
    getPlaylistsForList (Defined playlists) (Defined current) = Returns others ∧
    others `sublist_of` playlists ∧
    (∀ p, p ∈ others → Playlist.id p ≠ Playlist.id current) ∧
    ((∀ p, p ∈ playlists → Playlist.id p ≠ Playlist.id current) → others = playlists) ∧
    getPlaylistsForList (Defined others) (Defined current) = Returns others.
Proof.
  eexists. split; [apply getPlaylistsForList_filter|].
  split; [apply sublist_filter|]. split; [|split].
  - intros p Hp. by apply list_elem_of_filter in Hp as [? _].
  - intros Hall. induction playlists as [|p ps IH]; [done|].
    rewrite filter_cons_True by (apply Hall; by left).
    f_equal. apply IH. intros q Hq. apply Hall. by right.
  - rewrite getPlaylistsForList_filter. f_equal. by apply list_filter_filter_l.
Qed.

End SelectorFacts.

(** ** The search box component *)

Section SearchBoxFacts.

Import SearchBox.

Lemma read_write_other (p q v : string) (i : instance) :
  p ≠ q → read (write p v i) q = read i q.
Proof.
  intros Hpq. unfold read, write.
  induction i as [|[k x] i IH]; [done|].
  cbn [fmap list_fmap List.find fst snd].
  destruct (String.eqb_spec k p) as [->|Hkp]; cbn [fst snd].
  - destruct (String.eqb_spec p q); [done|]. apply IH.
  - destruct (String.eqb_spec k q); [done|]. apply IH.
Qed.

Lemma bind_keeps_other (p q v : string) (i i' : instance) :
  q ∉ inputs SearchBoxComponent →
  bind SearchBoxComponent p v i = Some i' → read i' q = read i q.
Proof.
  intros Hq. unfold bind.
  destruct (existsb (String.eqb p) (inputs SearchBoxComponent)) eqn:Hp; [|done].
  intros [= <-]. apply read_write_other. intros ->.
  apply Hq. apply existsb_exists in Hp as (x & Hx & ->%String.eqb_eq).
  by apply list_elem_of_In.
Qed.

Lemma bind_all_keeps_other (q : string) (bs : list (string * string)) (i : instance) :
  q ∉ inputs SearchBoxComponent →
  read (bind_all SearchBoxComponent bs i) q = read i q.
Proof.
  intros Hq. revert i.
  induction bs as [|[p v] bs IH]; intros i; [done|].
  cbn [bind_all].
  destruct (bind SearchBoxComponent p v i) as [i'|] eqn:Hb; rewrite IH; [|done].
  by apply (bind_keeps_other p q v).
Qed.

(** C3, as amended. The component declares one input, the current search
    term, and one output, the search event; the placeholder is a plain
    property that the component sets itself: whatever a parent binds, it
    reads ['Search for a release...']. *)
Theorem SearchBoxComponent_contract :
  inputs SearchBoxComponent = ["searchTerm"] ∧
  outputs SearchBoxComponent = ["onSearch"] ∧
  ∀ bindings : list (string * string),
    read (bind_all SearchBoxComponent bindings (construct SearchBoxComponent)) "placeholder"
    = Defined "Search for a release...".
Proof.
  split; [reflexivity|]. split; [reflexivity|].
  intros bindings. rewrite bind_all_keeps_other; [reflexivity|].
  cbn. intros H%list_elem_of_singleton. discriminate H.
Qed.

(** C3 does not hold as stated: the placeholder is not among the inputs, and
    a parent that binds it is refused. *)
Lemma SearchBoxComponent_placeholder_not_an_input :
  inputs SearchBoxComponent ≠ ["placeholder"; "searchTerm"] ∧
  ("placeholder" ∉ inputs SearchBoxComponent) ∧
  (bind SearchBoxComponent "placeholder" "Find an artist..." (construct SearchBoxComponent)
   = None).
Proof.
  split; [discriminate|]. split; [|reflexivity].
  cbn. intros H%list_elem_of_singleton. discriminate H.
Qed.

End SearchBoxFacts.

(** ** The root reducer *)

Section RootFacts.

Import Root.

Context {FState Action : Type}.

Implicit Types (h : list (object FState)) (p : prog FState) (r : FeatureReducer FState Action).
Implicit Types (s acc : gmap string value) (v state : value) (action : Action).
Implicit Types (f : Features FState Action) (key : string).

(** *** Running code against the heap *)

Lemma bind_returns {A B} (m : M A) (k : A → M B) h h1 (a : A) :
  m h = (h1, Returns a) → (m ≫= k) h = k a h1.
Proof. intros H. unfold mbind, M_bind. by rewrite H. Qed.

Lemma bind_throws {A B} (m : M A) (k : A → M B) h h1 (e : error) :
  m h = (h1, Throws e) → (m ≫= k) h = (h1, Throws e).
Proof. intros H. unfold mbind, M_bind. by rewrite H. Qed.

(** *** The first call *)



(** *** The mutation guard *)

Lemma refers_spec s (l : loc) : refers s l = true ↔ ∃ key, s !! key = Some (VRef l).
Proof.
  unfold refers. rewrite existsb_exists. split.
  - intros ([key v] & Hin & Hv). apply bool_decide_eq_true in Hv. cbn in Hv. subst v.
    exists key. apply elem_of_map_to_list. by apply list_elem_of_In.
  - intros (key & Hkey). exists (key, VRef l). split.
    + apply list_elem_of_In. by apply elem_of_map_to_list.
    + by apply bool_decide_eq_true.
Qed.

(** Freezing a state freezes each object it refers to and changes no contents. *)
Lemma deepFreeze_lookup s h (l : loc) :
  (deepFreeze s h).1 !! l
  = (λ o, if refers s l then freeze o else o) <$> h !! l.
Proof. unfold deepFreeze. cbn [fst]. apply list_lookup_imap. Qed.

Lemma deepFreeze_returns s h : (deepFreeze s h).2 = Returns ().
Proof. reflexivity. Qed.

(** An object that is frozen stays as it is, whatever a body does. *)
Lemma exec_frozen_kept p state h h' (res : outcome value) (l : loc) (o : object FState) :
  exec p state h = (h', res) → h !! l = Some o → frozen o = true → h' !! l = Some o.
Proof.
  revert h. induction p as [|[| |c]|c k IH|e]; intros h Hrun Hl Hfrozen;
    cbn [exec] in Hrun; try (injection Hrun as <- _; done).
  - injection Hrun as <- _. by apply lookup_app_l_Some.
  - destruct state as [| |l0]; try (injection Hrun as <- _; done).
    destruct (h !! l0) as [o0|] eqn:Hl0; [|injection Hrun as <- _; done].
    destruct (frozen o0) eqn:Hf0; [injection Hrun as <- _; done|].
    apply (IH _ Hrun); [|done].
    rewrite list_lookup_insert_ne; [done|].
    intros ->. congruence.
Qed.

(** A body that raises nothing of its own can only fail on an assignment. *)
Lemma exec_throws_TypeError p state h h' (e : error) :
  throws p = false → exec p state h = (h', Throws e) → e = TypeError.
Proof.
  revert h. induction p as [|[| |c]|c k IH|e0]; intros h Hthrows Hrun;
    cbn [exec throws] in *; try done.
  destruct state as [| |l0]; try by injection Hrun as _ <-.
  destruct (h !! l0) as [o0|]; [|by injection Hrun as _ <-].
  destruct (frozen o0); [by injection Hrun as _ <-|].
  by apply (IH _ Hthrows Hrun).
Qed.

(** With the state frozen, the loop over the features raises as soon as it
    reaches a feature that assigns to its state, if not before. *)
Lemma combination_guard (rs : list (string * FeatureReducer FState Action))
    s action key r (l : loc) (o : object FState) :
  (key, r) ∈ rs → s !! key = Some (VRef l) → frozen o = true →
  mutates (r (Defined (contents o)) action) →
  ∀ acc h, h !! l = Some o → ∃ h' e, combination rs s action acc h = (h', Throws e).
Proof.
  intros Hin Hkey Hfrozen Hmut.
  destruct (r (Defined (contents o)) action) as [| |c k|] eqn:Hprog; try done.
  clear Hmut. induction rs as [|[key0 r0] rs IH]; intros acc h Hl.
  { by apply elem_of_nil in Hin. }
  cbn [combination].
  destruct (call r0 (default VUndefined (s !! key0)) action h) as [h1 [v|e]] eqn:Hcall.
  - rewrite (bind_returns _ _ _ _ _ Hcall).
    apply elem_of_cons in Hin as [[= <- <-]|Hin].
    + exfalso. revert Hcall. unfold call. rewrite Hkey. simpl.
      rewrite Hl, Hprog. cbn [exec]. by rewrite Hl, Hfrozen.
    + apply (IH Hin). by apply (exec_frozen_kept _ _ _ _ _ _ _ Hcall).
  - rewrite (bind_throws _ _ _ _ _ Hcall). eauto.
Qed.

Lemma combination_throws_TypeError (rs : list (string * FeatureReducer FState Action))
    s action (e : error) :
  Forall (λ kr, well_behaved kr.2) rs →
  ∀ acc h h', combination rs s action acc h = (h', Throws e) → e = TypeError.
Proof.
  induction 1 as [|[key r] rs Hr _ IH]; intros acc h h' Hrun; [done|].
  cbn [combination] in Hrun.
  destruct (call r (default VUndefined (s !! key)) action h) as [h1 [v|e1]] eqn:Hcall.
  - rewrite (bind_returns _ _ _ _ _ Hcall) in Hrun. by apply (IH _ _ _ Hrun).
  - rewrite (bind_throws _ _ _ _ _ Hcall) in Hrun. injection Hrun as _ ->.
    apply (exec_throws_TypeError _ _ _ _ _ (proj1 (Hr _ _)) Hcall).
Qed.

(** Without the guard nothing is frozen, and a body that raises nothing of
    its own and assigns only to an object runs to its end. *)
Lemma exec_returns p state h :
  throws p = false →
  (assigns p = true → ∃ (l : loc) o, state = VRef l ∧ h !! l = Some o) →
  Forall (λ o, frozen o = false) h →
  ∃ h' v, exec p state h = (h', Returns v) ∧ Forall (λ o, frozen o = false) h'.
Proof.
  revert h. induction p as [|[| |c]|c k IH|e]; intros h Hthrows Hassigns Hheap;
    cbn [exec throws assigns] in *; try done; try by eauto.
  - eexists _, _. split; [done|]. apply Forall_app. split; [done|]. by constructor.
  - destruct Hassigns as (l & o & -> & Hl); [done|]. rewrite Hl.
    rewrite (proj1 (Forall_lookup _ _) Hheap _ _ Hl).
    apply IH; [done| |by apply Forall_insert].
    intros _. exists l. eexists. split; [done|].
    apply list_lookup_insert_eq. by apply lookup_lt_Some in Hl.
Qed.

Lemma call_returns r state action h :
  well_behaved r → Forall (λ o, frozen o = false) h →
  ∃ h' v, call r state action h = (h', Returns v) ∧ Forall (λ o, frozen o = false) h'.
Proof.
  intros Hr Hheap. unfold call.
  destruct (Hr (read h state) action) as [Hthrows Hassigns].
  apply exec_returns; [done| |done].
  intros Ha. specialize (Hassigns Ha).
  destruct state as [| |l]; cbn in Hassigns; try done.
  destruct (h !! l) as [o|] eqn:Hl; [eauto|done].
Qed.

Lemma combination_returns (rs : list (string * FeatureReducer FState Action)) s action :
  Forall (λ kr, well_behaved kr.2) rs →
  ∀ acc h, Forall (λ o, frozen o = false) h →
           ∃ h' s', combination rs s action acc h = (h', Returns s').
Proof.
  induction 1 as [|[key r] rs Hr _ IH]; intros acc h Hheap; [by eexists _, _|].
  cbn [combination].
  destruct (call_returns r (default VUndefined (s !! key)) action h Hr Hheap)
    as (h1 & v & Hcall & Hheap1).
  rewrite (bind_returns _ _ _ _ _ Hcall). by apply IH.
Qed.

(** C8. Take feature reducers that raise nothing of their own, one of which
    assigns to the state object it is handed. In a development build the
    root reducer raises (the TypeError of the assignment to a frozen object);
    in a production build, on the same state and action, it returns; and which
    of the two runs is decided by the flag at each call. *)
Theorem reducer_mutation_guard f s action h key r (l : loc) (o : object FState) :
  Forall (λ kr, well_behaved kr.2) (reducers f) →
  (key, r) ∈ reducers f → s !! key = Some (VRef l) → h !! l = Some o →
  mutates (r (Defined (contents o)) action) →
  (∃ h', reducer {| production := false |} f (Defined s) action h = (h', Throws TypeError)) ∧
  (Forall (λ o, frozen o = false) h →
   ∃ h' s', reducer {| production := true |} f (Defined s) action h = (h', Returns s')) ∧
  (∀ (environment : Environment) (st : nullable (gmap string value)) h0,
     reducer environment f st action h0
     = if production environment then productionReducer f st action h0
       else developmentReducer f st action h0).
Proof.
  intros Hwb Hin Hkey Hl Hmut. split; [|split].
  - unfold reducer, developmentReducer, compose, storeFreeze, combineReducers.
    cbn [production negb].
    destruct (deepFreeze s h) as [h0 res0] eqn:Hfreeze.
    assert (Hl0 : h0 !! l = Some (freeze o)).
    { pose proof (deepFreeze_lookup s h l) as Hlook.
      rewrite Hfreeze, Hl in Hlook. cbn in Hlook.
      by rewrite (proj2 (refers_spec s l) (ex_intro _ key Hkey)) in Hlook. }
    pose proof (deepFreeze_returns s h) as Hres. rewrite Hfreeze in Hres. cbn in Hres.
    subst res0. rewrite (bind_returns _ _ _ _ _ Hfreeze).
    destruct (combination_guard (reducers f) s action key r l (freeze o)
                Hin Hkey eq_refl Hmut ∅ h0 Hl0) as (h' & e & Hrun).
    pose proof (combination_throws_TypeError _ _ _ _ Hwb _ _ _ Hrun) as ->.
    rewrite (bind_throws _ _ _ _ _ Hrun). eauto.
  - intros Hheap. unfold reducer, productionReducer, combineReducers.
    cbn [production negb]. by apply combination_returns.
  - intros environment st h0. unfold reducer.
    by destruct (production environment).
Qed.

(** *** Purity *)

(** Appending to the heap changes nothing for a value that was live. *)
Lemma read_app h (news : list (object FState)) v :
  (∀ l : loc, v = VRef l → (l < length h)%nat) → read (h ++ news) v = read h v.
Proof.
  destruct v as [| |l]; [done..|]. intros Hlive. cbn [read].
  by rewrite lookup_app_l by auto.
Qed.

Lemma snapshot_app h (news : list (object FState)) s :
  live h s → snapshot (h ++ news) s = snapshot h s.
Proof.
  intros Hlive. apply map_eq. intros key. unfold snapshot. rewrite !lookup_fmap.
  destruct (s !! key) as [v|] eqn:Hkey; [|done]. cbn. f_equal.
  apply read_app. intros l ->. by apply (Hlive key).
Qed.

Lemma live_app h (news : list (object FState)) s : live h s → live (h ++ news) s.
Proof.
  intros Hlive key l Hkey. rewrite length_app.
  specialize (Hlive key l Hkey). lia.
Qed.

Lemma live_insert h s key v :
  live h s → (∀ l : loc, v = VRef l → (l < length h)%nat) → live h (<[key := v]> s).
Proof.
  intros Hlive Hv key' l. destruct (decide (key = key')) as [<-|Hne].
  - rewrite lookup_insert_eq. intros [= ->]. by apply Hv.
  - rewrite lookup_insert_ne by done. apply Hlive.
Qed.

Lemma snapshot_insert h s key v :
  snapshot h (<[key := v]> s) = <[key := read h v]> (snapshot h s).
Proof. unfold snapshot. apply fmap_insert. Qed.

Lemma snapshot_lookup_default h s key :
  default Undefined (snapshot h s !! key) = read h (default VUndefined (s !! key)).
Proof. unfold snapshot. rewrite lookup_fmap. by destruct (s !! key). Qed.

(** A loop over pure features only adds objects to the heap, and what it
    returns is, as plain data, what [combination_data] computes. *)
Lemma combination_pure (rs : list (string * FeatureReducer FState Action)) s action :
  Forall (λ kr, pure kr.2) rs →
  ∀ acc h, live h s → live h acc →
    ∃ news res,
      combination rs s action acc h = (h ++ news, res) ∧
      snapshot (h ++ news) <$> res
      = combination_data rs (snapshot h s) action (snapshot h acc).
Proof.
  induction 1 as [|[key r] rs Hr _ IH]; intros acc h Hs Hacc.
  { exists [], (Returns acc). by rewrite app_nil_r. }
  cbn [combination combination_data]. rewrite snapshot_lookup_default.
  set (prev := default VUndefined (s !! key)).
  assert (Hprev : ∀ l : loc, prev = VRef l → (l < length h)%nat).
  { subst prev. intros l. destruct (s !! key) as [v|] eqn:Hkey; [|done].
    cbn. intros ->. by apply (Hs key). }
  specialize (Hr (read h prev) action). cbn [snd] in Hr.
  unfold mbind, M_bind, call.
  destruct (r (read h prev) action) as [|[| |c]|c k|e]; cbn [exec]; [..|done|].
  - destruct (IH (<[key := prev]> acc) h Hs (live_insert _ _ _ _ Hacc Hprev))
      as (news & res & -> & Hres).
    exists news, res. split; [done|]. by rewrite Hres, snapshot_insert.
  - destruct (IH (<[key := VUndefined]> acc) h Hs) as (news & res & -> & Hres).
    { by apply live_insert. }
    exists news, res. split; [done|]. by rewrite Hres, snapshot_insert.
  - destruct (IH (<[key := VNull]> acc) h Hs) as (news & res & -> & Hres).
    { by apply live_insert. }
    exists news, res. split; [done|]. by rewrite Hres, snapshot_insert.
  - set (o := {| contents := c; frozen := false |}).
    destruct (IH (<[key := VRef (length h)]> acc) (h ++ [o])) as (news & res & -> & Hres).
    { by apply live_app. }
    { apply live_insert; [by apply live_app|].
      intros l [= <-]. rewrite length_app. cbn. lia. }
    exists ([o] ++ news), res. rewrite !(assoc_L (++)). split; [done|].
    rewrite Hres, snapshot_insert, !snapshot_app by done.
    do 2 f_equal. cbn [read]. by rewrite list_lookup_middle.
  - exists [], (Throws e). by rewrite app_nil_r.
Qed.

(** Two heaps that hold the same contents behind the references of a state
    give it the same snapshot. *)
Lemma snapshot_ext h h1 s :
  (∀ key (l : loc), s !! key = Some (VRef l) → contents <$> h1 !! l = contents <$> h !! l) →
  snapshot h1 s = snapshot h s.
Proof.
  intros Hsame. apply map_eq. intros key. unfold snapshot. rewrite !lookup_fmap.
  destruct (s !! key) as [[| |l]|] eqn:Hkey; [done..| |done]. cbn.
  specialize (Hsame key l Hkey).
  destruct (h1 !! l), (h !! l); cbn in Hsame; congruence.
Qed.

Lemma deepFreeze_contents s h (l : loc) :
  contents <$> (deepFreeze s h).1 !! l = contents <$> h !! l.
Proof.
  rewrite deepFreeze_lookup. destruct (h !! l) as [o|]; [|done].
  cbn. by destruct (refers s l).
Qed.

Lemma deepFreeze_length s h : length (deepFreeze s h).1 = length h.
Proof. unfold deepFreeze. cbn [fst]. apply length_imap. Qed.

(** The combined reducer over pure features: as plain data its result is
    what [combination_data] computes from the snapshot of the state, and it
    leaves the contents of every object of the heap as it was. *)
Lemma combineReducers_pure (rs : list (string * FeatureReducer FState Action)) s action h :
  Forall (λ kr, pure kr.2) rs → live h s →
  observe (combineReducers rs (Defined s) action h)
  = combination_data rs (snapshot h s) action ∅ ∧
  (length h ≤ length (combineReducers rs (Defined s) action h).1)%nat ∧
  (∀ l : loc, (l < length h)%nat →
     contents <$> (combineReducers rs (Defined s) action h).1 !! l = contents <$> h !! l).
Proof.
  intros Hpure Hlive. unfold combineReducers.
  destruct (combination_pure _ s action Hpure ∅ h Hlive) as (news & res & Hrun & Hres);
    [done|].
  rewrite Hrun. unfold observe. cbn [fst snd]. rewrite Hres.
  unfold snapshot at 2. rewrite fmap_empty. split; [done|].
  rewrite length_app. split; [lia|]. intros l Hl. by rewrite lookup_app_l.
Qed.

(** The same holds under the guard, which touches no contents. *)
Lemma storeFreeze_pure (rs : list (string * FeatureReducer FState Action)) s action h :
  Forall (λ kr, pure kr.2) rs → live h s →
  observe (storeFreeze (combineReducers rs) (Defined s) action h)
  = combination_data rs (snapshot h s) action ∅ ∧
  (length h ≤ length (storeFreeze (combineReducers rs) (Defined s) action h).1)%nat ∧
  (∀ l : loc, (l < length h)%nat →
     contents <$> (storeFreeze (combineReducers rs) (Defined s) action h).1 !! l
     = contents <$> h !! l).
Proof.
  intros Hpure Hlive. unfold storeFreeze.
  pose proof (deepFreeze_length s h) as Hlen0.
  pose proof (deepFreeze_contents s h) as Hcont0.
  pose proof (deepFreeze_returns s h) as Hret0.
  destruct (deepFreeze s h) as [h0 res0] eqn:Hfreeze. cbn [fst snd] in *. subst res0.
  rewrite (bind_returns _ _ _ _ _ Hfreeze).
  assert (Hlive0 : live h0 s).
  { intros key l Hkey. rewrite Hlen0. by apply (Hlive key). }
  destruct (combineReducers_pure rs s action h0 Hpure Hlive0) as (Hobs & Hlen1 & Hcont1).
  assert (Hdata : snapshot h0 s = snapshot h s) by (apply snapshot_ext; auto).
  rewrite Hdata in Hobs.
  destruct (combineReducers rs (Defined s) action h0) as [h1 [next|e]] eqn:Hrun;
    cbn [fst snd] in *.
  - rewrite (bind_returns _ _ _ _ _ Hrun).
    pose proof (deepFreeze_length next h1) as Hlen2.
    pose proof (deepFreeze_contents next h1) as Hcont2.
    pose proof (deepFreeze_returns next h1) as Hret2.
    destruct (deepFreeze next h1) as [h2 res2] eqn:Hfreeze2. cbn [fst snd] in *. subst res2.
    rewrite (bind_returns _ _ _ _ _ Hfreeze2).
    change (@mret M _ _ next h2) with (h2, Returns next). cbn [fst].
    split; [|split].
    + rewrite <- Hobs. unfold observe. cbn [fst snd fmap outcome_fmap]. f_equal.
      apply snapshot_ext. auto.
    + lia.
    + intros l Hl. rewrite Hcont2, Hcont1 by lia. apply Hcont0.
  - rewrite (bind_throws _ _ _ _ _ Hrun). cbn [fst]. split; [|split].
    + by rewrite <- Hobs.
    + lia.
    + intros l Hl. rewrite Hcont1 by lia. apply Hcont0.
Qed.

Lemma reducer_pure (environment : Environment) f (st : nullable (gmap string value)) action h :
  Forall (λ kr, pure kr.2) (reducers f) →
  (∀ s, st = Defined s → live h s) →
  observe (reducer environment f st action h)
  = match st with
    | Undefined => combination_data (reducers f) ∅ action ∅
    | Null => Throws TypeError
    | Defined s => combination_data (reducers f) (snapshot h s) action ∅
    end ∧
  (length h ≤ length (reducer environment f st action h).1)%nat ∧
  (∀ l : loc, (l < length h)%nat →
     contents <$> (reducer environment f st action h).1 !! l = contents <$> h !! l).
Proof.
  intros Hpure Hlive.
  assert (Hempty : live h ∅) by done.
  assert (Hsnap : snapshot h ∅ = ∅) by apply fmap_empty.
  unfold reducer. destruct (production environment); cbn [negb].
  - unfold productionReducer. destruct st as [| |s].
    + rewrite <- Hsnap at 1. apply (combineReducers_pure _ ∅); done.
    + by repeat split.
    + apply combineReducers_pure; auto.
  - unfold developmentReducer, compose. destruct st as [| |s].
    + rewrite <- Hsnap at 1. apply (storeFreeze_pure _ ∅); done.
    + by repeat split.
    + apply storeFreeze_pure; auto.
Qed.

(** C9. With pure feature reducers the root reducer is deterministic: called
    again with the same state and the same action, after its first call has
    left its marks on the heap, it yields a result that is structurally
    equal to the first one (the same data under every key, or the same
    error), though the objects need not be the same. *)
Theorem reducer_deterministic (environment : Environment) f
    (st : nullable (gmap string value)) action h :
  Forall (λ kr, pure kr.2) (reducers f) →
  (∀ s, st = Defined s → live h s) →
  let first := reducer environment f st action h in
  let second := reducer environment f st action first.1 in
  observe second = observe first.
Proof.
  intros Hpure Hlive first second.
  destruct (reducer_pure environment f st action h Hpure Hlive) as (Hfirst & Hlen & Hcont).
  fold first in Hfirst, Hlen, Hcont.
  assert (Hlive1 : ∀ s, st = Defined s → live first.1 s).
  { intros s Hs key l Hkey. specialize (Hlive s Hs key l Hkey). lia. }
  destruct (reducer_pure environment f st action first.1 Hpure Hlive1) as (Hsecond & _).
  fold second in Hsecond. rewrite Hfirst, Hsecond.
  destruct st as [| |s]; [done..|].
  f_equal. apply snapshot_ext. intros key l Hkey.
  apply Hcont. by apply (Hlive s eq_refl key).
Qed.

(** *** Further properties of the root reducer *)

(** X8. With pure feature reducers the two builds agree: on the same state
    and action the development variant and the production variant yield the
    same data under every key, or the same error. The guard shows only when a
    feature assigns to its state. *)
Theorem reducer_builds_agree f (st : nullable (gmap string value)) action h :
  Forall (λ kr, pure kr.2) (reducers f) →
  (∀ s, st = Defined s → live h s) →
  observe (reducer {| production := true |} f st action h)
  = observe (reducer {| production := false |} f st action h).
Proof.
  intros Hpure Hlive.
  destruct (reducer_pure {| production := true |} f st action h Hpure Hlive) as [-> _].
  by destruct (reducer_pure {| production := false |} f st action h Hpure Hlive) as [-> _].
Qed.

Lemma combination_frozen_kept (rs : list (string * FeatureReducer FState Action))
    s action (l : loc) (o : object FState) :
  frozen o = true →
  ∀ acc h h' (res : outcome (gmap string value)),
    combination rs s action acc h = (h', res) → h !! l = Some o → h' !! l = Some o.
Proof.
  intros Hfrozen. induction rs as [|[key r] rs IH]; intros acc h h' res Hrun Hl.
  { by injection Hrun as <- _. }
  cbn [combination] in Hrun.
  destruct (call r (default VUndefined (s !! key)) action h) as [h1 [v|e]] eqn:Hcall.
  - rewrite (bind_returns _ _ _ _ _ Hcall) in Hrun.
    apply (IH _ _ _ _ Hrun). by apply (exec_frozen_kept _ _ _ _ _ _ _ Hcall).
  - rewrite (bind_throws _ _ _ _ _ Hcall) in Hrun. injection Hrun as <- _.
    by apply (exec_frozen_kept _ _ _ _ _ _ _ Hcall).
Qed.

Lemma freeze_frozen (o : object FState) : frozen o = true → freeze o = o.
Proof. destruct o as [c b]. cbn. by intros ->. Qed.

Lemma deepFreeze_frozen_kept s h (l : loc) (o : object FState) :
  h !! l = Some o → frozen o = true → (deepFreeze s h).1 !! l = Some o.
Proof.
  intros Hl Hfrozen. rewrite deepFreeze_lookup, Hl. cbn.
  destruct (refers s l); [|done]. by rewrite freeze_frozen.
Qed.

(** The guarded reducer keeps an object that is frozen when the loop starts. *)
Lemma storeFreeze_frozen_kept (rs : list (string * FeatureReducer FState Action))
    s action h0 (l : loc) (o : object FState) :
  h0 !! l = Some o → frozen o = true →
  (( nextState ← combineReducers rs (Defined s) action;
     _ ← deepFreeze nextState;
     mret nextState) h0).1 !! l = Some o.
Proof.
  intros Hl Hfrozen.
  destruct (combineReducers rs (Defined s) action h0) as [h1 [next|e]] eqn:Hrun.
  - rewrite (bind_returns _ _ _ _ _ Hrun).
    pose proof (combination_frozen_kept rs s action l o Hfrozen _ _ _ _ Hrun Hl) as Hl1.
    pose proof (deepFreeze_frozen_kept next h1 l o Hl1 Hfrozen) as Hl2.
    pose proof (deepFreeze_returns next h1) as Hret.
    destruct (deepFreeze next h1) as [h2 res2] eqn:Hfreeze. cbn [fst snd] in *. subst res2.
    by rewrite (bind_returns _ _ _ _ _ Hfreeze).
  - rewrite (bind_throws _ _ _ _ _ Hrun). cbn [fst].
    by apply (combination_frozen_kept rs s action l o Hfrozen _ _ _ _ Hrun).
Qed.

(** X9. In a development build no feature reducer can change the state it
    is given: whatever the feature reducers do, and whether the root reducer
    returns or raises, the objects of the prior state hold afterwards what
    they held before, and they are frozen. *)
Theorem reducer_development_keeps_state f s action h :
  live h s →
  snapshot (reducer {| production := false |} f (Defined s) action h).1 s = snapshot h s ∧
  ∀ key (l : loc), s !! key = Some (VRef l) →
    ∃ o, (reducer {| production := false |} f (Defined s) action h).1 !! l = Some o ∧
         frozen o = true.
Proof.
  intros Hlive.
  assert (Hobj : ∀ key (l : loc), s !! key = Some (VRef l) →
            ∃ o, h !! l = Some o ∧
                 (reducer {| production := false |} f (Defined s) action h).1 !! l
                 = Some (freeze o)).
  { intros key l Hkey.
    destruct (lookup_lt_is_Some_2 h l (Hlive key l Hkey)) as [o Hl].
    exists o. split; [done|].
    unfold reducer, developmentReducer, compose, storeFreeze. cbn [production negb].
    pose proof (deepFreeze_lookup s h l) as Hl0.
    pose proof (deepFreeze_returns s h) as Hret.
    destruct (deepFreeze s h) as [h0 res0] eqn:Hfreeze. cbn [fst snd] in *. subst res0.
    rewrite Hl in Hl0. cbn in Hl0.
    rewrite (proj2 (refers_spec s l) (ex_intro _ key Hkey)) in Hl0.
    rewrite (bind_returns _ _ _ _ _ Hfreeze).
    by apply storeFreeze_frozen_kept. }
  split.
  - apply snapshot_ext. intros key l Hkey.
    destruct (Hobj key l Hkey) as (o & -> & ->). done.
  - intros key l Hkey. destruct (Hobj key l Hkey) as (o & _ & ->). by eexists.
Qed.

(** On plain data, the loop stores under each key what the reducer of that
    key hands back for the data under that key, and leaves the other keys of
    [nextState] alone. *)
Lemma combination_data_lookup (rs : list (string * FeatureReducer FState Action))
    (d : gmap string (nullable FState)) action :
  NoDup rs.*1 →
  ∀ (acc d' : gmap string (nullable FState)),
    combination_data rs d action acc = Returns d' →
    (∀ key r, (key, r) ∈ rs →
       d' !! key = Some (returned (r (default Undefined (d !! key)) action)
                                  (default Undefined (d !! key)))) ∧
    (∀ key, key ∉ rs.*1 → d' !! key = acc !! key).
Proof.
  induction rs as [|[key0 r0] rs IH]; intros Hnd acc d' Hrun.
  { injection Hrun as <-. split; [|done]. intros key r Hin. by apply elem_of_nil in Hin. }
  cbn [fmap list_fmap fst] in Hnd. apply NoDup_cons in Hnd as [Hfresh Hnd].
  cbn [combination_data] in Hrun.
  set (prev := default Undefined (d !! key0)) in *.
  assert (Hstep : combination_data rs d action
                    (<[key0 := returned (r0 prev action) prev]> acc) = Returns d').
  { destruct (r0 prev action) as [|v|c k|e]; done. }
  destruct (IH Hnd _ _ Hstep) as [Hin Hout]. split.
  - intros key r [[= -> ->]|Hkr]%elem_of_cons.
    + rewrite (Hout key0 Hfresh). by rewrite lookup_insert_eq.
    + by apply Hin.
  - intros key Hkey. cbn [fmap list_fmap fst] in Hkey.
    apply not_elem_of_cons in Hkey as [Hne Hkey].
    rewrite (Hout key Hkey). by rewrite lookup_insert_ne.
Qed.

Lemma reducers_NoDup f : NoDup (reducers f).*1.
Proof. apply (bool_decide_unpack _). by vm_compute. Qed.

(** The value under a key of the new state is what the reducer registered
    under that key hands back for the value under that key of the old state. *)
Lemma reducer_routes (environment : Environment) f s action h h' s' key r :
  Forall (λ kr, pure kr.2) (reducers f) → live h s →
  (key, r) ∈ reducers f →
  reducer environment f (Defined s) action h = (h', Returns s') →
  read h' (default VUndefined (s' !! key))
  = returned (r (read h (default VUndefined (s !! key))) action)
             (read h (default VUndefined (s !! key))).
Proof.
  intros Hpure Hlive Hin Hrun.
  destruct (reducer_pure environment f (Defined s) action h Hpure) as [Hobs _].
  { by intros ? [= <-]. }
  rewrite Hrun in Hobs. unfold observe in Hobs. cbn in Hobs. symmetry in Hobs.
  destruct (combination_data_lookup _ _ _ (reducers_NoDup f) _ _ Hobs) as [Hlook _].
  specialize (Hlook key r Hin).
  rewrite <- !snapshot_lookup_default. by rewrite Hlook.
Qed.

(** X10. The root reducer routes each slice to its own reducer: with pure
    feature reducers, what a slice selector reads from the state that the
    root reducer returns is what the reducer of that slice hands back for
    what the same selector reads from the prior state; the other slices
    play no part. *)
Theorem reducer_routes_slices (environment : Environment) f s action h h' s' :
  Forall (λ kr, pure kr.2) (reducers f) → live h s →
  reducer environment f (Defined s) action h = (h', Returns s') →
  Forall (λ gr, read h' (gr.1 s') = returned (gr.2 (read h (gr.1 s)) action) (read h (gr.1 s)))
         (slices f).
Proof.
  intros Hpure Hlive Hrun.
  assert (Hroute : ∀ key r, (key, r) ∈ reducers f →
            read h' (default VUndefined (s' !! key))
            = returned (r (read h (default VUndefined (s !! key))) action)
                       (read h (default VUndefined (s !! key)))).
  { intros key r Hin. by apply (reducer_routes environment f s action h h' s' key r). }
  unfold slices. repeat apply List.Forall_cons; try apply List.Forall_nil.
  all: cbn [fst snd]; apply Hroute; unfold reducers; set_solver.
Qed.

End RootFacts.

(** ** The root reducer on the sample features *)


Lemma reducer_mutation_guard_witness :
  (∃ h' : list (Root.object string),
      Root.reducer {| production := false |} Sample.careless_features
        (Defined Sample.loaded_state) "touch" Sample.loaded_heap
      = (h', Throws TypeError)) ∧
  (∃ (h' : list (Root.object string)) s',
      Root.reducer {| production := true |} Sample.careless_features
        (Defined Sample.loaded_state) "touch" Sample.loaded_heap
      = (h', Returns s')).
Proof.
  destruct (reducer_mutation_guard Sample.careless_features Sample.loaded_state "touch"
              Sample.loaded_heap "player" (Sample.careless "player") 2%nat
              {| Root.contents := "a player"; Root.frozen := false |})
    as (Hdev & Hprod & _).
  - repeat apply List.Forall_cons; try apply List.Forall_nil; intros st a.
    all: destruct st; cbn; try destruct (String.eqb a "touch"); cbn; done.
  - do 2 (apply elem_of_cons; right). apply elem_of_cons. by left.
  - reflexivity.
  - reflexivity.
  - reflexivity.
  - split; [exact Hdev|]. apply Hprod. by repeat constructor.
Defined.

Lemma reducer_deterministic_witness :
  let first :=
    Root.reducer {| production := false |} Sample.features
      (Defined Sample.loaded_state) "touch" Sample.loaded_heap in
  let second :=
    Root.reducer {| production := false |} Sample.features
      (Defined Sample.loaded_state) "touch" first.1 in
  Root.observe second = Root.observe first.
Proof.
  apply (reducer_deterministic {| production := false |} Sample.features
           (Defined Sample.loaded_state) "touch" Sample.loaded_heap).
  - repeat apply List.Forall_cons; try apply List.Forall_nil; intros st a.
    all: destruct st; cbn; try destruct (String.eqb a "touch"); cbn; done.
  - intros s [= <-] key l Hkey. unfold Sample.loaded_state in Hkey.
    repeat (apply lookup_insert_Some in Hkey as [[_ Hv]|[_ Hkey]];
            [injection Hv as <-; cbn; lia|]).
    by rewrite lookup_empty in Hkey.
Defined.

(** Purity is needed: a feature that marks its state in place makes the
    second call of a production build see what the first one left. *)
Example reducer_careless_not_deterministic :
  let first :=
    Root.reducer {| production := true |} Sample.careless_features
      (Defined Sample.loaded_state) "touch" Sample.loaded_heap in
  let second :=
    Root.reducer {| production := true |} Sample.careless_features
      (Defined Sample.loaded_state) "touch" first.1 in
  (Root.snapshot first.1 <$> first.2) ≫= (λ d, mret (d !! "player"))
  = Returns (Some (Defined "a player!")) ∧
  (Root.snapshot second.1 <$> second.2) ≫= (λ d, mret (d !! "player"))
  = Returns (Some (Defined "a player!!")).
Proof. split; by vm_compute. Qed.

Lemma reducer_builds_agree_witness :
  Root.observe (Root.reducer {| production := true |} Sample.features
                  (Defined Sample.loaded_state) "touch" Sample.loaded_heap)
  = Root.observe (Root.reducer {| production := false |} Sample.features
                    (Defined Sample.loaded_state) "touch" Sample.loaded_heap).
Proof.
  apply (reducer_builds_agree Sample.features (Defined Sample.loaded_state) "touch"
           Sample.loaded_heap).
  - repeat apply List.Forall_cons; try apply List.Forall_nil; intros st a.
    all: destruct st; cbn; try destruct (String.eqb a "touch"); cbn; done.
  - intros s [= <-] key l Hkey. unfold Sample.loaded_state in Hkey.
    repeat (apply lookup_insert_Some in Hkey as [[_ Hv]|[_ Hkey]];
            [injection Hv as <-; cbn; lia|]).
    by rewrite lookup_empty in Hkey.
Defined.

Lemma reducer_development_keeps_state_witness :
  Root.snapshot
    (Root.reducer {| production := false |} Sample.careless_features
       (Defined Sample.loaded_state) "touch" Sample.loaded_heap).1 Sample.loaded_state
  = Root.snapshot Sample.loaded_heap Sample.loaded_state.
Proof.
  apply (reducer_development_keeps_state Sample.careless_features Sample.loaded_state
           "touch" Sample.loaded_heap).
  intros key l Hkey. unfold Sample.loaded_state in Hkey.
  repeat (apply lookup_insert_Some in Hkey as [[_ Hv]|[_ Hkey]];
          [injection Hv as <-; cbn; lia|]).
  by rewrite lookup_empty in Hkey.
Defined.

Lemma reducer_routes_slices_witness :
  ∃ (h' : list (Root.object string)) s',
    Root.reducer {| production := false |} Sample.features
      (Defined Sample.loaded_state) "touch" Sample.loaded_heap = (h', Returns s') ∧
    Forall (λ gr, Root.read h' (gr.1 s')
                  = Root.returned (gr.2 (Root.read Sample.loaded_heap (gr.1 Sample.loaded_state))
                                        "touch")
                                  (Root.read Sample.loaded_heap (gr.1 Sample.loaded_state)))
           (Root.slices Sample.features).
Proof.
  eexists _, _. split; [by vm_compute|].
  apply (reducer_routes_slices {| production := false |} Sample.features
           Sample.loaded_state "touch" Sample.loaded_heap).
  - repeat apply List.Forall_cons; try apply List.Forall_nil; intros st a.
    all: destruct st; cbn; try destruct (String.eqb a "touch"); cbn; done.
  - intros key l Hkey. unfold Sample.loaded_state in Hkey.
    repeat (apply lookup_insert_Some in Hkey as [[_ Hv]|[_ Hkey]];
            [injection Hv as <-; cbn; lia|]).
    by rewrite lookup_empty in Hkey.
  - by vm_compute.
Defined.
